(** * Edge DNS record writes: validation, status classification and the
      zone write lock

    A shallow embedding of the record operations of package [dns]
    ([RecordBody], [Validate], [RecordToMap], [NewRecordBody], [localLock],
    [CreateRecord], [UpdateRecord], [DeleteRecord]), of [GetRuleFormats] of
    package [papi] and of the [Client] constructors of packages [v3] and
    [gtm], together with the properties stated about them.

    Go values are modelled as follows.
    - [string] is [string]; [int] is [Z] (no arithmetic is performed on it);
      [[]string] is [list string]; [bool] is [bool].
    - [interface{}] holding one of the above is the tagged union [any].
    - [map[string]T] is [gmap string T].
    - the [error] interface is [option error], [None] being Go's [nil].
    - a [func] value is [func A]: either [nil] or a closure.
    - a method that logs, locks and calls the session is a program [prog A]:
      a tree of the observable actions it performs, interpreted sequentially
      by [run] and, for several goroutines, by the interleaving relation
      [step].
    - a [*RecordBody] argument is the record it points to (the pointer is
      not nil); the context argument only selects the logger and is left
      out.

    The body encoder [convertStructToReqBody] and [http.NewRequestWithContext]
    are parameters of the operations; the session behind [p.Exec] is a
    parameter of the interpretation. *)

From Stdlib Require Import ZArith List.
From stdpp Require Import base option strings list gmap fin_maps.

Open Scope string_scope.

(** ** Values held in an [interface{}] *)

Inductive any : Type :=
| AString (s : string)
| AInt (n : Z)
| ABool (b : bool)
| AStrings (l : list string).

(** ** Go [func] values: the only thing a program can ask of one without
       calling it is whether it is [nil]. *)

Inductive func (A : Type) : Type :=
| FuncNil
| FuncOf (body : unit -> A).
Arguments FuncNil {A}.
Arguments FuncOf {A} body.

(** [f != nil] for a func-typed [f]. *)
Definition func_neq_nil {A} (f : func A) : bool :=
  match f with
  | FuncNil => false
  | FuncOf _ => true
  end.

(** [f()]: calling a nil func panics, which [None] stands for. *)
Definition func_call {A} (f : func A) : option A :=
  match f with
  | FuncNil => None
  | FuncOf body => Some (body tt)
  end.

(** ** The validation library used by [Validate]

    [validation.Validate(v, validation.Required)] and
    [validation.Errors.Filter] of ozzo-validation v4, restricted to the kinds
    of value the record has. *)
Module validation.

(** The library's [ErrRequired], "cannot be blank". *)
Inductive Error : Type := ErrRequired.

(** [IsEmpty]: a string or slice is empty when its length is 0, an integer
    when it equals 0 and a bool when it is false. *)
Definition IsEmpty (v : any) : bool :=
  match v with
  | AString s => Nat.eqb (String.length s) 0
  | AInt n => Z.eqb n 0
  | ABool b => negb b
  | AStrings l => Nat.eqb (length l) 0
  end.

(** A rule maps a value to an error or [nil]. *)
Definition Rule : Type := any -> option Error.

Definition Required : Rule :=
  fun v => if IsEmpty v then Some ErrRequired else None.

(** [Validate(v, rules...)]: the first failing rule's error, else [nil]
    (none of the record's field types is itself validatable). *)
Fixpoint Validate (v : any) (rules : list Rule) : option Error :=
  match rules with
  | [] => None
  | r :: rest =>
      match r v with
      | Some e => Some e
      | None => Validate v rest
      end
  end.

(** [Errors.Filter]: drop the keys bound to [nil]; the result is [nil]
    when no key is left, else the remaining map. *)
Definition Filter (es : gmap string (option Error)) : option (gmap string Error) :=
  let es' := omap id es in
  if Nat.eqb (size es') 0 then None else Some es'.

End validation.

(** ** Records *)

Record RecordBody : Type := mkRecordBody {
  Name : string;
  RecordType : string;
  TTL : Z;
  Active : bool;
  Target : list string
}.

(** The literal [validation.Errors{...}] of [Validate]. *)
Definition Validate_errors (rec : RecordBody) : gmap string (option validation.Error) :=
  <["Name" := validation.Validate (AString (Name rec)) [validation.Required]]>
  (<["RecordType" := validation.Validate (AString (RecordType rec)) [validation.Required]]>
  (<["TTL" := validation.Validate (AInt (TTL rec)) [validation.Required]]>
  (<["Target" := validation.Validate (AStrings (Target rec)) [validation.Required]]> ∅))).

(** [func (rec *RecordBody) Validate() error] *)
Definition Validate (rec : RecordBody) : option (gmap string validation.Error) :=
  validation.Filter (Validate_errors rec).

(** [RecordBody{}]: every field at its zero value. *)
Definition RecordBody_zero : RecordBody :=
  {| Name := ""; RecordType := ""; TTL := 0; Active := false; Target := [] |}.

(** The composite literal [RecordBody{Name: n}]. *)
Definition RecordBody_with_Name (n : string) : RecordBody :=
  {| Name := n;
     RecordType := RecordType RecordBody_zero;
     TTL := TTL RecordBody_zero;
     Active := Active RecordBody_zero;
     Target := Target RecordBody_zero |}.

(** ** Requests, responses and errors *)

Record Request : Type := mkRequest {
  Method : string;
  URL : string;
  Body : option string
}.

Record Response : Type := mkResponse {
  StatusCode : Z;
  ResponseBody : string
}.

Definition MethodPost : string := "POST".
Definition MethodPut : string := "PUT".
Definition MethodDelete : string := "DELETE".

Definition StatusOK : Z := 200.
Definition StatusCreated : Z := 201.
Definition StatusNoContent : Z := 204.

(** The errors a record operation can return:
    - [ErrAPI resp] is [session.NewAPIError(resp, logger)], the remote error
      carrying the response status and body;
    - [ErrWrap msg cause] is [fmt.Errorf(msg + ": %w", cause)];
    - [ErrOpaque msg] is an error made by a collaborator (the session, the
      request constructor, the body encoder). *)
Inductive error : Type :=
| ErrAPI (resp : Response)
| ErrWrap (msg : string) (cause : error)
| ErrOpaque (msg : string).

Definition NewAPIError (resp : Response) : error := ErrAPI resp.

(** ** Programs

    The observable actions of a method, in program order: the two operations
    on the package-level [zoneRecordWriteLock], the two logger calls, and
    [p.Exec], whose continuation receives the response or the error. *)
Inductive prog (A : Type) : Type :=
| Ret (a : A)
| MutexLock (k : prog A)
| MutexUnlock (k : prog A)
| LogDebug (msg : string) (k : prog A)
| LogErrorf (format : string) (k : prog A)
| SessionExec (req : Request) (k : Response + error -> prog A).
Arguments Ret {A} a.
Arguments MutexLock {A} k.
Arguments MutexUnlock {A} k.
Arguments LogDebug {A} msg k.
Arguments LogErrorf {A} format k.
Arguments SessionExec {A} req k.

Fixpoint prog_bind {A B} (f : A -> prog B) (p : prog A) : prog B :=
  match p with
  | Ret a => f a
  | MutexLock k => MutexLock (prog_bind f k)
  | MutexUnlock k => MutexUnlock (prog_bind f k)
  | LogDebug m k => LogDebug m (prog_bind f k)
  | LogErrorf m k => LogErrorf m (prog_bind f k)
  | SessionExec req k => SessionExec req (fun res => prog_bind f (k res))
  end.

#[export] Instance prog_mret : MRet prog := fun A a => Ret a.
#[export] Instance prog_mbind : MBind prog := fun A B f p => prog_bind f p.

(** [defer zoneRecordWriteLock.Unlock()]: the unlock runs when the body
    returns, whatever it returns. *)
Definition deferUnlock {A} (body : prog A) : prog A :=
  r ← body; MutexUnlock (Ret r).

(** [if lock { zoneRecordWriteLock.Lock(); defer zoneRecordWriteLock.Unlock() }]
    followed by the rest of the method. *)
Definition lockScope {A} (lock : bool) (body : prog A) : prog A :=
  if lock then MutexLock (deferUnlock body) else body.

(** ** The record operations *)

Inductive operation : Type := Create | Update | Delete.

(** Eval option lock arg passed into writable endpoints: the loop returns at
    its first iteration, the default is [true]. *)
Definition localLock (lockArg : list bool) : bool :=
  match lockArg with
  | lock :: _ => lock
  | [] => true
  end.

(** The method value [record.Validate]: a func bound to its receiver. *)
Definition Validate_method (record : RecordBody) : func (option (gmap string validation.Error)) :=
  FuncOf (fun _ => Validate record).

(** [fmt.Sprintf("/config-dns/v2/zones/%s/names/%s/types/%s", zone, name, type)] *)
Definition recordURL (zone : string) (record : RecordBody) : string :=
  "/config-dns/v2/zones/" +:+ zone +:+ "/names/" +:+ Name record
    +:+ "/types/" +:+ RecordType record.

(** [fmt.Errorf(format, cause)] with a [%w] verb: the cause stays attached. *)
Definition Errorf (format : string) (cause : error) : option error :=
  Some (ErrWrap format cause).

Section Operations.

(** The package's JSON encoder of a record into a request body. *)
Variable convertStructToReqBody : RecordBody -> string + error.

(** [http.NewRequestWithContext(ctx, method, url, body)]. *)
Variable NewRequestWithContext : string -> string -> option string -> Request + error.

Definition RecordToMap (record : RecordBody) : prog (option (gmap string any)) :=
  LogDebug "RecordToMap" (
    let err := Validate_method record in
    if func_neq_nil err then
      LogErrorf "Record to map failed. %w" (Ret None)
    else
      Ret (Some (<["name" := AString (Name record)]>
                (<["ttl" := AInt (TTL record)]>
                (<["recordtype" := AString (RecordType record)]>
                (<["active" := ABool (Active record)]>
                (<["target" := AStrings (Target record)]> ∅))))))).

Definition NewRecordBody (params : RecordBody) : prog RecordBody :=
  LogDebug "NewRecordBody" (
    let recordbody := RecordBody_with_Name (Name params) in
    Ret recordbody).

Definition CreateRecord (record : RecordBody) (zone : string)
    (recLock : list bool) : prog (option error) :=
  lockScope (localLock recLock) (
    LogDebug "CreateRecord" (
      let err := Validate_method record in
      if func_neq_nil err then
        LogErrorf "Record content not vaiid: %w" (Ret None)
      else
        match convertStructToReqBody record with
        | inr err => Ret (Errorf "failed to generate request body: %w" err)
        | inl reqbody =>
            let postURL := recordURL zone record in
            match NewRequestWithContext MethodPost postURL (Some reqbody) with
            | inr err => Ret (Errorf "failed to create CreateRecord request: %w" err)
            | inl req =>
                SessionExec req (fun res =>
                  match res with
                  | inr err => Ret (Errorf "CreateRecord request failed: %w" err)
                  | inl resp =>
                      if negb (StatusCode resp =? StatusCreated)%Z
                      then Ret (Some (NewAPIError resp))
                      else Ret None
                  end)
            end
        end)).

Definition UpdateRecord (record : RecordBody) (zone : string)
    (recLock : list bool) : prog (option error) :=
  lockScope (localLock recLock) (
    LogDebug "UpdateRecord" (
      let err := Validate_method record in
      if func_neq_nil err then
        LogErrorf "Record content not vaiid: %w" (Ret None)
      else
        match convertStructToReqBody record with
        | inr err => Ret (Errorf "failed to generate request body: %w" err)
        | inl reqbody =>
            let putURL := recordURL zone record in
            match NewRequestWithContext MethodPut putURL (Some reqbody) with
            | inr err => Ret (Errorf "failed to create UpdateRecord request: %w" err)
            | inl req =>
                SessionExec req (fun res =>
                  match res with
                  | inr err => Ret (Errorf "UpdateRecord request failed: %w" err)
                  | inl resp =>
                      if negb (StatusCode resp =? StatusOK)%Z
                      then Ret (Some (NewAPIError resp))
                      else Ret None
                  end)
            end
        end)).

Definition DeleteRecord (record : RecordBody) (zone : string)
    (recLock : list bool) : prog (option error) :=
  lockScope (localLock recLock) (
    LogDebug "DeleteRecord" (
      let err := Validate_method record in
      if func_neq_nil err then
        LogErrorf "Record content not vaiid: %w" (Ret None)
      else
        let deleteURL := recordURL zone record in
        match NewRequestWithContext MethodDelete deleteURL None with
        | inr err => Ret (Errorf "failed to create DeleteRecord request: %w" err)
        | inl req =>
            SessionExec req (fun res =>
              match res with
              | inr err => Ret (Errorf "DeleteRecord request failed: %w" err)
              | inl resp =>
                  if negb (StatusCode resp =? StatusNoContent)%Z
                  then Ret (Some (NewAPIError resp))
                  else Ret None
              end)
        end)).

(** The three mutating operations, by name. *)
Definition mutate (op : operation) : RecordBody -> string -> list bool -> prog (option error) :=
  match op with
  | Create => CreateRecord
  | Update => UpdateRecord
  | Delete => DeleteRecord
  end.

End Operations.

(** ** Sequential execution

    One call run to completion by one goroutine.  The world holds the state
    of [zoneRecordWriteLock] and the chronological list of the actions
    performed so far. *)

Inductive obs : Type :=
| OLock
| OUnlock
| ODebug (msg : string)
| OErrorf (format : string)
| OExec (req : Request).

Record world : Type := mkWorld {
  mutex : bool;            (* is [zoneRecordWriteLock] held? *)
  trace : list obs
}.

Definition emit (o : obs) (w : world) : world :=
  {| mutex := mutex w; trace := trace w ++ [o] |}.

Definition set_mutex (b : bool) (w : world) : world :=
  {| mutex := b; trace := trace w |}.

(** The session collaborator behind [p.Exec]: its answer may depend on what
    happened before and on the request. *)
Definition Session : Type := list obs -> Request -> Response + error.

(** How a call ends: it returns; it waits for ever on a lock nobody will
    release ([Blocked]); or the runtime aborts on the unlock of an unlocked
    mutex ([Fatal]). *)
Inductive outcome (A : Type) : Type :=
| Returned (a : A) (w : world)
| Blocked (w : world)
| Fatal (w : world).
Arguments Returned {A} a w.
Arguments Blocked {A} w.
Arguments Fatal {A} w.

Fixpoint run {A} (sess : Session) (p : prog A) (w : world) : outcome A :=
  match p with
  | Ret a => Returned a w
  | MutexLock k =>
      if mutex w then Blocked w
      else run sess k (emit OLock (set_mutex true w))
  | MutexUnlock k =>
      if mutex w then run sess k (emit OUnlock (set_mutex false w))
      else Fatal w
  | LogDebug m k => run sess k (emit (ODebug m) w)
  | LogErrorf m k => run sess k (emit (OErrorf m) w)
  | SessionExec req k => run sess (k (sess (trace w) req)) (emit (OExec req) w)
  end.

Definition is_exec (o : obs) : bool :=
  match o with OExec _ => true | _ => false end.

Definition is_lock (o : obs) : bool :=
  match o with OLock => true | _ => false end.

(** The number of requests handed to the session, and of lock acquisitions. *)
Definition requests (t : list obs) : nat := length (List.filter is_exec t).
Definition acquisitions (t : list obs) : nat := length (List.filter is_lock t).

(** The world in which nothing has happened yet and the lock is free. *)
Definition world0 : world := {| mutex := false; trace := [] |}.

(** ** Concurrent execution

    Goroutines interleave at the granularity of actions.  A goroutine whose
    request has been handed to the session and not yet answered is
    [InFlight]. *)

Inductive thread : Type :=
| Running (p : prog (option error))
| InFlight (req : Request) (k : Response + error -> prog (option error)).

Definition in_flight (t : thread) : bool :=
  match t with InFlight _ _ => true | Running _ => false end.

(** One action of one goroutine; the booleans are the state of the mutex
    before and after.  [Lock] can only be taken on a free mutex: until then
    the goroutine has no step. *)
Inductive tstep : bool -> thread -> bool -> thread -> Prop :=
| tstep_lock k :
    tstep false (Running (MutexLock k)) true (Running k)
| tstep_unlock k :
    tstep true (Running (MutexUnlock k)) false (Running k)
| tstep_debug m msg k :
    tstep m (Running (LogDebug msg k)) m (Running k)
| tstep_errorf m format k :
    tstep m (Running (LogErrorf format k)) m (Running k)
| tstep_issue m req k :
    tstep m (Running (SessionExec req k)) m (InFlight req k)
| tstep_answer m req k res :
    tstep m (InFlight req k) m (Running (k res)).

Record config : Type := mkConfig {
  cmutex : bool;
  pool : list thread
}.

Inductive step : config -> config -> Prop :=
| step_at m m' (ts : list thread) i t t' :
    ts !! i = Some t ->
    tstep m t m' t' ->
    step (mkConfig m ts) (mkConfig m' (<[i := t']> ts)).

(** The number of goroutines with a request in flight. *)
Definition in_flight_count (ts : list thread) : nat :=
  length (List.filter in_flight ts).

(** *** Where a goroutine stands with respect to the lock *)

(** [lockfree p]: [p] never touches the mutex. *)
Inductive lockfree {A} : prog A -> Prop :=
| lockfree_ret a : lockfree (Ret a)
| lockfree_debug msg k : lockfree k -> lockfree (LogDebug msg k)
| lockfree_errorf format k : lockfree k -> lockfree (LogErrorf format k)
| lockfree_exec req k : (forall res, lockfree (k res)) -> lockfree (SessionExec req k).

(** [quiet p]: [p] touches neither the mutex nor the session. *)
Inductive quiet {A} : prog A -> Prop :=
| quiet_ret a : quiet (Ret a)
| quiet_debug msg k : quiet k -> quiet (LogDebug msg k)
| quiet_errorf format k : quiet k -> quiet (LogErrorf format k).

(** [holding p]: [p] is the rest of a lock scope; it releases the mutex
    exactly once, after its last request, and is quiet afterwards. *)
Inductive holding {A} : prog A -> Prop :=
| holding_unlock k : quiet k -> holding (MutexUnlock k)
| holding_debug msg k : holding k -> holding (LogDebug msg k)
| holding_errorf format k : holding k -> holding (LogErrorf format k)
| holding_exec req k : (forall res, holding (k res)) -> holding (SessionExec req k).

(** [waiting p]: [p] starts by taking the mutex and then holds it. *)
Inductive waiting {A} : prog A -> Prop :=
| waiting_lock k : holding k -> waiting (MutexLock k).

Definition owns (t : thread) : Prop :=
  match t with
  | Running p => holding p
  | InFlight _ k => forall res, holding (k res)
  end.

Definition outside (t : thread) : Prop :=
  match t with
  | Running p => waiting p \/ quiet p
  | InFlight _ _ => False
  end.

(** The invariant of the interleaving: every goroutine is inside or outside
    the lock scope, at most one is inside, and none is when the mutex is
    free. *)
Record lock_inv (c : config) : Prop := mkLockInv {
  inv_phase : forall i t, pool c !! i = Some t -> owns t \/ outside t;
  inv_unique : forall i j ti tj,
      pool c !! i = Some ti -> pool c !! j = Some tj ->
      owns ti -> owns tj -> i = j;
  inv_free : cmutex c = false ->
      forall i t, pool c !! i = Some t -> ~ owns t
}.

(** A call as the caller writes it. *)
Record call : Type := mkCall {
  call_op : operation;
  call_record : RecordBody;
  call_zone : string;
  call_lock : list bool
}.

(** The goroutines of a list of calls, none started, the mutex free. *)
Definition spawn (convertStructToReqBody : RecordBody -> string + error)
    (NewRequestWithContext : string -> string -> option string -> Request + error)
    (calls : list call) : config :=
  mkConfig false
    (map (fun c => Running (mutate convertStructToReqBody NewRequestWithContext
                              (call_op c) (call_record c) (call_zone c) (call_lock c)))
         calls).

(** The name each operation logs at entry. *)
Definition operation_name (op : operation) : string :=
  match op with
  | Create => "CreateRecord"
  | Update => "UpdateRecord"
  | Delete => "DeleteRecord"
  end.

(** ** Concrete inputs used below *)

(** The record of the end-to-end scenario. *)
Definition www_record : RecordBody :=
  {| Name := "www.example.com"; RecordType := "A"; TTL := 300;
     Active := false; Target := ["192.0.2.1"] |}.

(** A well-formed record whose time-to-live is negative. *)
Definition negative_ttl_record : RecordBody :=
  {| Name := "www.example.com"; RecordType := "A"; TTL := -1;
     Active := false; Target := ["192.0.2.1"] |}.

(** Collaborators that never fail: the body is the record's name, the
    request is what it was built from. *)
Definition sample_encode : RecordBody -> string + error :=
  fun rec => inl (Name rec).

Definition sample_request : string -> string -> option string -> Request + error :=
  fun method url body => inl (mkRequest method url body).

(** A session that answers every request with the given status. *)
Definition answering (status : Z) (body : string) : Session :=
  fun _ _ => inl (mkResponse status body).

(** A session that fails every request before any response. *)
Definition failing (cause : error) : Session :=
  fun _ _ => inr cause.

(** Two serialized calls racing on one zone, and the configuration reached
    once the second has taken the lock and logged its entry. *)
Definition racing_calls : list call :=
  [ mkCall Create www_record "example.com" [];
    mkCall Delete www_record "example.com" [true] ].

Definition racing_second_inside : config :=
  mkConfig true
    [ Running (CreateRecord sample_encode sample_request www_record "example.com" []);
      Running (LogErrorf "Record content not vaiid: %w" (MutexUnlock (Ret None))) ].

(** A lock scope whose body does hand a request to the session. *)
Definition ping : Request := mkRequest "GET" "/config-dns/v2/zones" None.

Definition pinging : prog (option error) :=
  lockScope true (SessionExec ping (fun _ => Ret None)).

(** ** Goroutines at work

    A goroutine is at work when it is neither waiting to take the mutex nor
    returned: for a serialized write this is the span between its [Lock]
    and its return, which holds its entry log, its guard and its whole
    request/response cycle. *)

Definition working (t : thread) : bool :=
  match t with
  | Running (Ret _) => false
  | Running (MutexLock _) => false
  | _ => true
  end.

Definition working_count (ts : list thread) : nat :=
  length (List.filter working ts).



(** The goroutines of a list of calls together with those of any other
    writers that run their bodies in the same lock scope, none started. *)
Definition writers (convertStructToReqBody : RecordBody -> string + error)
    (NewRequestWithContext : string -> string -> option string -> Request + error)
    (calls : list call) (others : list (prog (option error))) : config :=
  mkConfig false
    (pool (spawn convertStructToReqBody NewRequestWithContext calls)
       ++ map (fun body => Running (lockScope true body)) others).



(** Two calls that opt out of serialization. *)
Definition unserialized_calls : list call :=
  [ mkCall Create www_record "example.com" [false];
    mkCall Delete www_record "example.com" [false] ].

(** ** Reading the rule formats (package [papi]) *)

Definition MethodGet : string := "GET".

Module papi.

Record RuleFormatItems : Type := mkRuleFormatItems {
  Items : list string
}.

Record GetRuleFormatsResponse : Type := mkGetRuleFormatsResponse {
  RuleFormats : RuleFormatItems
}.

Section GetRuleFormats.

Variable NewRequestWithContext : string -> string -> option string -> Request + error.

(** What [p.Exec(req, &ruleFormats)] has stored in [ruleFormats] when it
    returns the given response. *)
Variable decoded : Response -> GetRuleFormatsResponse.

(** The result is the pair of the response pointer ([None] when nil) and
    of the error. *)
Definition GetRuleFormats : prog (option GetRuleFormatsResponse * option error) :=
  LogDebug "GetRuleFormats" (
    match NewRequestWithContext MethodGet "/papi/v1/rule-formats" None with
    | inr err => Ret (None, Errorf "failed to create GetRuleFormats request: %w" err)
    | inl req =>
        SessionExec req (fun res =>
          match res with
          | inr err => Ret (None, Errorf "GetRuleFormats request failed: %w" err)
          | inl resp =>
              let ruleFormats := decoded resp in
              if negb (StatusCode resp =? StatusOK)%Z
              then Ret (None, Some (NewAPIError resp))
              else Ret (Some ruleFormats, None)
          end)
    end).

End GetRuleFormats.

End papi.

(** ** Clients and their options (packages [v3] and [gtm])

    A client struct embeds the session; an option is a function that may
    update the struct it is handed. *)

Module cloudlets.

Record cloudlets : Type := mkCloudlets {
  client_Session : Session
}.

Definition Option : Type := cloudlets -> cloudlets.

(** [Client]: the struct around [sess], then every option in turn. *)
Definition Client (sess : Session) (opts : list Option) : cloudlets :=
  fold_left (fun c opt => opt c) opts (mkCloudlets sess).

End cloudlets.

Module gtm.

Record gtm : Type := mkGtm {
  client_Session : Session
}.

Definition Option : Type := gtm -> gtm.

Definition Client (sess : Session) (opts : list Option) : gtm :=
  fold_left (fun p opt => opt p) opts (mkGtm sess).

(** [Exec] hands its arguments to the embedded session's [Exec]. *)
Definition Exec (g : gtm) (history : list obs) (r : Request) : Response + error :=
  client_Session g history r.

End gtm.

(** ** Goroutines that have returned *)

Definition returned (t : thread) : bool :=
  match t with
  | Running (Ret _) => true
  | _ => false
  end.

(** Every goroutine of the configuration has returned. *)
Definition finished (c : config) : Prop :=
  Forall (fun t => returned t = true) (pool c).

(** While the mutex is held some goroutine is inside its lock scope. *)
Definition held_by_someone (c : config) : Prop :=
  cmutex c = true -> exists i t, pool c !! i = Some t /\ owns t.

(** A request constructor that rejects everything. *)
Definition rejecting_request : string -> string -> option string -> Request + error :=
  fun _ _ _ => inr (ErrOpaque "net/http: invalid method").

(** The decoder that finds no rule format. *)
Definition no_formats : Response -> papi.GetRuleFormatsResponse :=
  fun _ => papi.mkGetRuleFormatsResponse (papi.mkRuleFormatItems []).

(** * Properties *)

(** ** The validator *)

Lemma Required_string_nil s :
  validation.Validate (AString s) [validation.Required] = None <-> s <> "".
Proof.
  unfold validation.Validate, validation.Required; simpl.
  destruct s; simpl; split; congruence.
Qed.

Lemma Required_int_nil n :
  validation.Validate (AInt n) [validation.Required] = None <-> n <> 0%Z.
Proof.
  unfold validation.Validate, validation.Required; simpl.
  destruct (Z.eqb_spec n 0); split; congruence.
Qed.

Lemma Required_strings_nil (l : list string) :
  validation.Validate (AStrings l) [validation.Required] = None <-> l <> [].
Proof.
  unfold validation.Validate, validation.Required; simpl.
  destruct l; simpl; split; congruence.
Qed.

(** [Filter] answers [nil] exactly when every key of the map is bound to
    [nil]. *)
Lemma Filter_nil_iff (es : gmap string (option validation.Error)) :
  validation.Filter es = None <-> forall k e, es !! k = Some e -> e = None.
Proof.
  unfold validation.Filter.
  destruct (Nat.eqb_spec (size (omap id es)) 0) as [Hz|Hnz].
  - apply map_size_empty_iff in Hz. split; [intros _|done].
    intros k e Hk.
    assert (omap id es !! k = None) as Hn by (rewrite Hz; apply lookup_empty).
    rewrite lookup_omap, Hk in Hn. exact Hn.
  - split; [done|]. intros Hall. exfalso. apply Hnz.
    apply map_size_empty_iff, map_eq. intros k.
    rewrite lookup_omap, lookup_empty.
    destruct (es !! k) as [e|] eqn:Hk; [|done].
    by rewrite (Hall _ _ Hk).
Qed.

(** The four keys of the literal and what each is bound to. *)
Lemma Validate_errors_lookup rec k e :
  Validate_errors rec !! k = Some e <->
    (k = "Name" /\ e = validation.Validate (AString (Name rec)) [validation.Required]) \/
    (k = "RecordType" /\ e = validation.Validate (AString (RecordType rec)) [validation.Required]) \/
    (k = "TTL" /\ e = validation.Validate (AInt (TTL rec)) [validation.Required]) \/
    (k = "Target" /\ e = validation.Validate (AStrings (Target rec)) [validation.Required]).
Proof.
  unfold Validate_errors.
  rewrite !lookup_insert_Some, lookup_empty.
  split.
  - intros [[<- <-]|[_ [[<- <-]|[_ [[<- <-]|[_ [[<- <-]|[_ ?]]]]]]]]; try done; auto 6.
  - intros [[-> ->]|[[-> ->]|[[-> ->]|[-> ->]]]].
    + by left.
    + right. split; [done|]. by left.
    + right. split; [done|]. right. split; [done|]. by left.
    + right. split; [done|]. right. split; [done|]. right. split; [done|]. by left.
Qed.

(** What [Validate] accepts. *)
Lemma Validate_nil_iff rec :
  Validate rec = None <->
    Name rec <> "" /\ RecordType rec <> "" /\ TTL rec <> 0%Z /\ Target rec <> [].
Proof.
  unfold Validate. rewrite Filter_nil_iff.
  rewrite <- Required_string_nil, <- Required_string_nil,
          <- Required_int_nil, <- Required_strings_nil.
  split.
  - intros H. repeat split; eapply H, Validate_errors_lookup; eauto 6.
  - intros (Hn & Hr & Ht & Hg) k e [[_ ->]|[[_ ->]|[[_ ->]|[_ ->]]]]%Validate_errors_lookup;
      assumption.
Qed.

(** C7 (as amended): [Validate] returns no error if and only if the record
    has a non-empty name, a non-empty type, a non-zero time-to-live (the
    field is a signed integer, and a negative value is accepted) and at
    least one target value; it returns an error if and only if one of the
    four is missing.  [Validate] is a function of the record alone. *)
Theorem Validate_accepts_iff_required_fields_present rec :
  (Validate rec = None <->
     Name rec <> "" /\ RecordType rec <> "" /\ TTL rec <> 0%Z /\ Target rec <> [])
  /\ (Validate rec <> None <->
      Name rec = "" \/ RecordType rec = "" \/ TTL rec = 0%Z \/ Target rec = []).
Proof.
  split; [apply Validate_nil_iff|].
  rewrite Validate_nil_iff.
  destruct (decide (Name rec = "")), (decide (RecordType rec = "")),
           (decide (TTL rec = 0%Z)), (decide (Target rec = [])); tauto.
Qed.

(** C7 (as stated) fails: a record with a negative time-to-live passes
    [Validate] although its time-to-live is not positive. *)
Lemma Validate_accepts_negative_ttl :
  Validate negative_ttl_record = None /\
  ¬ (Name negative_ttl_record <> "" /\ RecordType negative_ttl_record <> "" /\
     (0 < TTL negative_ttl_record)%Z /\ Target negative_ttl_record <> []).
Proof.
  split.
  - apply Validate_nil_iff. repeat split; discriminate.
  - intros (_ & _ & Hpos & _). simpl in Hpos. lia.
Qed.

(** ** Sequential execution of the operations *)

(** The guard [if err := record.Validate; err != nil] tests a method value,
    which is never [nil]. *)
Lemma Validate_method_neq_nil record :
  func_neq_nil (Validate_method record) = true.
Proof. reflexivity. Qed.

(** Hence every operation is its lock scope around the entry log and the
    guard's error branch. *)
Lemma mutate_guard_branch conv newreq op record zone recLock :
  mutate conv newreq op record zone recLock =
  lockScope (localLock recLock)
    (LogDebug (operation_name op)
       (LogErrorf "Record content not vaiid: %w" (Ret None))).
Proof. destruct op; reflexivity. Qed.

Lemma run_bind {A B} sess (p : prog A) (f : A -> prog B) w :
  run sess (p ≫= f) w =
  match run sess p w with
  | Returned a w' => run sess (f a) w'
  | Blocked w' => Blocked w'
  | Fatal w' => Fatal w'
  end.
Proof.
  revert w. induction p as [a|k IH|k IH|m k IH|m k IH|req k IH]; intros w;
    unfold mbind, prog_mbind in *; simpl.
  - reflexivity.
  - destruct (mutex w); [reflexivity|apply IH].
  - destruct (mutex w); [apply IH|reflexivity].
  - apply IH.
  - apply IH.
  - apply IH.
Qed.

(** A body that never touches the mutex returns, and leaves the mutex as it
    found it. *)
Lemma lockfree_run {A} sess (p : prog A) :
  lockfree p ->
  forall w, exists a evs,
    run sess p w = Returned a (mkWorld (mutex w) (trace w ++ evs))
    /\ acquisitions evs = 0.
Proof.
  induction 1 as [a|msg k _ IH|format k _ IH|req k _ IH]; intros w; simpl.
  - exists a, []. rewrite app_nil_r. by destruct w.
  - destruct (IH (emit (ODebug msg) w)) as (a & evs & -> & Hacq).
    exists a, (ODebug msg :: evs). simpl. by rewrite <- app_assoc.
  - destruct (IH (emit (OErrorf format) w)) as (a & evs & -> & Hacq).
    exists a, (OErrorf format :: evs). simpl. by rewrite <- app_assoc.
  - destruct (IH (sess (trace w) req) (emit (OExec req) w)) as (a & evs & -> & Hacq).
    exists a, (OExec req :: evs). simpl. by rewrite <- app_assoc.
Qed.

(** The lock scope: taken on a free mutex, the lock is released by the
    deferred unlock whatever the body returns. *)
Lemma lockScope_releases {A} sess (body : prog A) t :
  lockfree body ->
  exists a evs,
    run sess (lockScope true body) (mkWorld false t)
      = Returned a (mkWorld false (t ++ OLock :: evs ++ [OUnlock]))
    /\ acquisitions evs = 0.
Proof.
  intros Hfree. unfold lockScope, deferUnlock.
  change (run sess (MutexLock (body ≫= λ r : A, MutexUnlock (Ret r))) (mkWorld false t))
    with (run sess (body ≫= λ r : A, MutexUnlock (Ret r)) (mkWorld true (t ++ [OLock]))).
  rewrite run_bind.
  destruct (lockfree_run sess body Hfree (mkWorld true (t ++ [OLock])))
    as (a & evs & -> & Hacq).
  exists a, evs. split; [|done]. simpl.
  unfold emit, set_mutex; simpl. by rewrite <- !app_assoc.
Qed.

(** Without the lock scope the mutex is not consulted at all. *)
Lemma lockScope_skipped {A} sess (body : prog A) m t :
  lockfree body ->
  exists a evs,
    run sess (lockScope false body) (mkWorld m t) = Returned a (mkWorld m (t ++ evs))
    /\ acquisitions evs = 0.
Proof. intros Hfree. apply (lockfree_run sess body Hfree (mkWorld m t)). Qed.

(** The body of each operation, as written, never touches the mutex. *)
Lemma mutate_body_lockfree conv newreq op record zone recLock :
  exists body,
    mutate conv newreq op record zone recLock = lockScope (localLock recLock) body
    /\ lockfree body.
Proof.
  destruct op; simpl; unfold CreateRecord, UpdateRecord, DeleteRecord;
    eexists; (split; [reflexivity|]); repeat constructor.
Qed.

Lemma acquisitions_app t1 t2 :
  acquisitions (t1 ++ t2) = acquisitions t1 + acquisitions t2.
Proof. unfold acquisitions. by rewrite List.filter_app, length_app. Qed.

Lemma acquisitions_0_no_lock evs : acquisitions evs = 0 -> ~ In OLock evs.
Proof.
  unfold acquisitions. induction evs as [|o evs IH]; simpl; [tauto|].
  destruct o; simpl; try discriminate; intros H0 [Heq|Hin];
    try discriminate; by apply IH.
Qed.

(** What a call does from a free mutex, action by action. *)
Lemma mutate_run conv newreq op sess record zone recLock t :
  run sess (mutate conv newreq op record zone recLock) (mkWorld false t) =
  Returned None
    (mkWorld false
       (t ++ (if localLock recLock then [OLock] else [])
          ++ [ODebug (operation_name op); OErrorf "Record content not vaiid: %w"]
          ++ (if localLock recLock then [OUnlock] else []))).
Proof.
  rewrite mutate_guard_branch.
  destruct (localLock recLock); simpl; unfold emit, set_mutex; simpl;
    by rewrite <- ?app_assoc.
Qed.

(** C1 (as amended): for every record that fails validation, a mutating
    operation called with serialization enabled acquires the write lock
    first, reaches its validation guard while holding it, and releases it
    when it returns; the lock is left alone only when the caller opts out of
    serialization. *)
Theorem invalid_record_guard_runs_inside_lock_scope
    conv newreq op sess record zone recLock t :
  Validate record <> None ->
  exists r,
    run sess (mutate conv newreq op record zone recLock) (mkWorld false t) =
    Returned r
      (mkWorld false
         (t ++ (if localLock recLock then [OLock] else [])
            ++ [ODebug (operation_name op); OErrorf "Record content not vaiid: %w"]
            ++ (if localLock recLock then [OUnlock] else []))).
Proof. intros _. eexists. apply mutate_run. Qed.

Lemma invalid_record_guard_runs_inside_lock_scope_witness :
  Validate RecordBody_zero <> None /\
  exists r,
    run (answering 201 "") (mutate sample_encode sample_request Create RecordBody_zero "example.com" [])
      world0 =
    Returned r
      (mkWorld false
         [OLock; ODebug "CreateRecord"; OErrorf "Record content not vaiid: %w"; OUnlock]).
Proof.
  assert (Validate RecordBody_zero <> None) as Hinvalid.
  { rewrite Validate_nil_iff. intros [Hname _]. by apply Hname. }
  split; [exact Hinvalid|].
  exact (invalid_record_guard_runs_inside_lock_scope
           sample_encode sample_request Create (answering 201 "")
           RecordBody_zero "example.com" [] [] Hinvalid).
Defined.

(** C1 (as stated) fails: a record with no name, type, time-to-live or
    target is submitted with serialization enabled; the call takes the lock
    and returns no error. *)
Lemma invalid_record_takes_lock_and_returns_nil :
  Validate RecordBody_zero <> None /\
  run (answering 201 "") (CreateRecord sample_encode sample_request RecordBody_zero "example.com" [])
    world0 =
  Returned None
    (mkWorld false
       [OLock; ODebug "CreateRecord"; OErrorf "Record content not vaiid: %w"; OUnlock]) /\
  ¬ (exists e w',
       run (answering 201 "")
         (CreateRecord sample_encode sample_request RecordBody_zero "example.com" []) world0
       = Returned (Some e) w' /\ ~ In OLock (trace w')).
Proof.
  split; [|split].
  - rewrite Validate_nil_iff. intros [Hname _]. by apply Hname.
  - reflexivity.
  - intros (e & w' & Hrun & _). discriminate Hrun.
Qed.

(** C2 (code defect): [CreateRecord] returns [nil] whatever status the
    session would answer, because it returns at the guard and never hands a
    request to the session; in particular a valid record against a session
    answering 200 yields success, not a remote error. *)
Theorem CreateRecord_returns_nil_for_any_status :
  (forall conv newreq record zone recLock status body t,
     exists evs,
       run (answering status body) (CreateRecord conv newreq record zone recLock)
         (mkWorld false t) = Returned None (mkWorld false (t ++ evs))
       /\ requests evs = 0)
  /\ Validate www_record = None
  /\ run (answering 200 "") (CreateRecord sample_encode sample_request www_record "example.com" [])
       world0
     = Returned None
         (mkWorld false
            [OLock; ODebug "CreateRecord"; OErrorf "Record content not vaiid: %w"; OUnlock]).
Proof.
  split; [|split].
  - intros. eexists. split.
    + apply (mutate_run conv newreq Create).
    + by destruct (localLock recLock).
  - apply Validate_nil_iff. repeat split; discriminate.
  - reflexivity.
Qed.

(** C3 (code defect): [UpdateRecord] and [DeleteRecord] return [nil]
    whatever status the session would answer, for the same reason; in
    particular an update answered 500 and a delete answered 404 of a valid
    record both yield success. *)
Theorem UpdateRecord_DeleteRecord_return_nil_for_any_status :
  (forall conv newreq record zone recLock status body t,
     exists evs,
       run (answering status body) (UpdateRecord conv newreq record zone recLock)
         (mkWorld false t) = Returned None (mkWorld false (t ++ evs))
       /\ requests evs = 0)
  /\ (forall newreq record zone recLock status body t,
     exists evs,
       run (answering status body) (DeleteRecord newreq record zone recLock)
         (mkWorld false t) = Returned None (mkWorld false (t ++ evs))
       /\ requests evs = 0)
  /\ run (answering 500 "") (UpdateRecord sample_encode sample_request www_record "example.com" [])
       world0
     = Returned None
         (mkWorld false
            [OLock; ODebug "UpdateRecord"; OErrorf "Record content not vaiid: %w"; OUnlock])
  /\ run (answering 404 "") (DeleteRecord sample_request www_record "example.com" [])
       world0
     = Returned None
         (mkWorld false
            [OLock; ODebug "DeleteRecord"; OErrorf "Record content not vaiid: %w"; OUnlock]).
Proof.
  split; [|split; [|split]].
  - intros. eexists. split.
    + apply (mutate_run conv newreq Update).
    + by destruct (localLock recLock).
  - intros. eexists. split.
    + apply (mutate_run sample_encode newreq Delete).
    + by destruct (localLock recLock).
  - reflexivity.
  - reflexivity.
Qed.

(** C6 (code defect): against a session that fails every request before any
    response, each mutating operation returns [nil], not an error wrapping
    the cause: it never reaches the session.  No request is issued and the
    lock, when taken, is released. *)
Theorem session_failure_is_not_reported :
  forall conv newreq op record zone recLock cause t,
    exists evs,
      run (failing cause) (mutate conv newreq op record zone recLock) (mkWorld false t)
        = Returned None (mkWorld false (t ++ evs))
      /\ requests evs = 0.
Proof.
  intros. eexists. split.
  - apply mutate_run.
  - by destruct (localLock recLock).
Qed.

(** C4: a mutating call that finds the lock free returns with the lock free,
    whatever its flag and whatever it returns: every acquisition is followed
    by the deferred release, and a next call that wants the lock gets it and
    returns in turn. *)
Theorem write_lock_released_on_every_return :
  forall conv newreq op sess record zone recLock t,
    exists r evs,
      run sess (mutate conv newreq op record zone recLock) (mkWorld false t)
        = Returned r (mkWorld false (t ++ evs))
      /\ (localLock recLock = true ->
          exists mid, evs = OLock :: mid ++ [OUnlock] /\ acquisitions mid = 0)
      /\ forall op' record' zone',
          exists r' evs',
            run sess (mutate conv newreq op' record' zone' []) (mkWorld false (t ++ evs))
              = Returned r' (mkWorld false ((t ++ evs) ++ OLock :: evs')).
Proof.
  intros.
  destruct (mutate_body_lockfree conv newreq op record zone recLock)
    as (body & -> & Hfree).
  assert (forall op' record' zone' t',
    exists r' evs',
      run sess (mutate conv newreq op' record' zone' []) (mkWorld false t')
        = Returned r' (mkWorld false (t' ++ OLock :: evs'))) as Hnext.
  { intros op' record' zone' t'.
    destruct (mutate_body_lockfree conv newreq op' record' zone' [])
      as (body' & -> & Hfree'). cbn [localLock].
    destruct (lockScope_releases sess body' t' Hfree') as (r' & evs' & -> & _).
    by exists r', (evs' ++ [OUnlock])%list. }
  destruct (localLock recLock).
  - destruct (lockScope_releases sess body t Hfree) as (r & mid & -> & Hmid).
    exists r, (OLock :: mid ++ [OUnlock])%list. split; [done|]. split; [|by intros].
    intros _. by exists mid.
  - destruct (lockScope_skipped sess body false t Hfree) as (r & evs & -> & _).
    exists r, evs. split; [done|]. split; [done|]. by intros.
Qed.

Lemma localLock_true_iff (recLock : list bool) :
  localLock recLock = true <-> recLock = [] \/ exists rest, recLock = true :: rest.
Proof.
  destruct recLock as [|[] rest]; simpl.
  - split; [by left|done].
  - split; [|done]. intros _. right. by exists rest.
  - split; [done|]. intros [Hnil|[rest' Hcons]]; congruence.
Qed.

(** C5: the write lock is taken if and only if the flag list evaluates to
    true, that is, if and only if the list is empty (the default) or its
    first element is true: with an empty list or an explicit true the call
    takes the lock; with a first element false it takes none and returns
    without touching the mutex, free or held. *)
Theorem write_lock_taken_iff_serialize :
  forall conv newreq op sess record zone,
    (forall recLock t,
       exists r evs,
         run sess (mutate conv newreq op record zone recLock) (mkWorld false t)
           = Returned r (mkWorld false (t ++ evs))
         /\ (In OLock evs <-> localLock recLock = true)
         /\ (In OLock evs <-> recLock = [] \/ exists rest, recLock = true :: rest)
         /\ acquisitions evs = (if localLock recLock then 1 else 0))
    /\ localLock [] = true
    /\ (forall rest, localLock (true :: rest) = true)
    /\ (forall rest, localLock (false :: rest) = false)
    /\ (forall rest t,
       exists r evs,
         run sess (mutate conv newreq op record zone (true :: rest)) (mkWorld false t)
           = Returned r (mkWorld false (t ++ OLock :: evs)))
    /\ (forall rest m t,
       exists r evs,
         run sess (mutate conv newreq op record zone (false :: rest)) (mkWorld m t)
           = Returned r (mkWorld m (t ++ evs))
         /\ ~ In OLock evs).
Proof.
  intros. split; [|split; [done|split; [done|split; [done|split]]]].
  - intros recLock t.
    destruct (mutate_body_lockfree conv newreq op record zone recLock)
      as (body & -> & Hfree).
    pose proof (localLock_true_iff recLock) as Hlist.
    destruct (localLock recLock).
    + destruct (lockScope_releases sess body t Hfree) as (r & mid & -> & Hmid).
      exists r, (OLock :: mid ++ [OUnlock])%list. split; [done|].
      assert (In OLock (OLock :: mid ++ [OUnlock]) <-> true = true) as Hiff.
      { split; [done|]. intros _. by left. }
      split; [exact Hiff|]. split; [by rewrite <- Hlist|].
      change (OLock :: mid ++ [OUnlock])%list with ([OLock] ++ mid ++ [OUnlock])%list.
      rewrite !acquisitions_app, Hmid. reflexivity.
    + destruct (lockScope_skipped sess body false t Hfree) as (r & evs & -> & Hacq).
      exists r, evs. split; [done|].
      assert (In OLock evs <-> false = true) as Hiff.
      { split; [|done]. intros Hin. by apply acquisitions_0_no_lock in Hacq. }
      split; [exact Hiff|]. split; [by rewrite <- Hlist|exact Hacq].
  - intros rest t.
    destruct (mutate_body_lockfree conv newreq op record zone (true :: rest))
      as (body & -> & Hfree). cbn [localLock].
    destruct (lockScope_releases sess body t Hfree) as (r & mid & -> & _).
    by exists r, (mid ++ [OUnlock])%list.
  - intros rest m t.
    destruct (mutate_body_lockfree conv newreq op record zone (false :: rest))
      as (body & -> & Hfree). cbn [localLock].
    destruct (lockScope_skipped sess body m t Hfree) as (r & evs & -> & Hacq).
    exists r, evs. split; [done|]. by apply acquisitions_0_no_lock.
Qed.

(** C9: for every record, valid or not, [RecordToMap] returns [nil]: its
    guard compares the method value [record.Validate], which is never
    [nil], against [nil], so the error branch is always taken and the map
    of the record's fields is never built. *)
Theorem RecordToMap_returns_nil :
  forall sess record w,
    func_neq_nil (Validate_method record) = true
    /\ run sess (RecordToMap record) w
       = Returned None
           (mkWorld (mutex w)
              (trace w ++ [ODebug "RecordToMap"; OErrorf "Record to map failed. %w"])).
Proof.
  intros. split; [reflexivity|].
  simpl. unfold emit; simpl. by rewrite <- app_assoc.
Qed.

(** C10: [NewRecordBody] returns a record whose name is the name of its
    argument and whose type, time-to-live, active flag and targets are the
    zero values, whatever the argument holds in them. *)
Theorem NewRecordBody_keeps_only_Name :
  forall sess params w,
    exists rb,
      run sess (NewRecordBody params) w = Returned rb (emit (ODebug "NewRecordBody") w)
      /\ Name rb = Name params
      /\ RecordType rb = ""
      /\ TTL rb = 0%Z
      /\ Active rb = false
      /\ Target rb = [].
Proof. intros. eexists. repeat split. Qed.

(** ** Concurrent execution: mutual exclusion of the lock scopes *)

Lemma quiet_not_holding {A} (p : prog A) : quiet p -> ~ holding p.
Proof.
  induction 1 as [a|msg k _ IH|format k _ IH]; intros Hh; inversion Hh; subst; auto.
Qed.

Lemma waiting_not_holding {A} (p : prog A) : waiting p -> ~ holding p.
Proof. intros [k _] Hh. inversion Hh. Qed.

Lemma outside_not_owns t : outside t -> ~ owns t.
Proof.
  destruct t as [p|req k]; simpl; [|tauto].
  intros [Hw|Hq]; [by apply waiting_not_holding|by apply quiet_not_holding].
Qed.

(** A body that never touches the mutex, run under the deferred unlock, is
    the rest of a lock scope. *)
Lemma deferUnlock_holding {A} (body : prog A) :
  lockfree body -> holding (deferUnlock body).
Proof.
  unfold deferUnlock, mbind, prog_mbind.
  induction 1 as [a|msg k _ IH|format k _ IH|req k _ IH]; simpl.
  - apply holding_unlock, quiet_ret.
  - by apply holding_debug.
  - by apply holding_errorf.
  - apply holding_exec. intros res. apply IH.
Qed.

Lemma lockScope_waiting {A} (body : prog A) :
  lockfree body -> waiting (lockScope true body).
Proof. intros Hfree. apply waiting_lock. by apply deferUnlock_holding. Qed.

(** A serialized call starts outside the lock scope, about to enter it. *)
Lemma mutate_waiting conv newreq op record zone recLock :
  localLock recLock = true ->
  waiting (mutate conv newreq op record zone recLock).
Proof.
  intros Hlock.
  destruct (mutate_body_lockfree conv newreq op record zone recLock)
    as (body & -> & Hfree).
  rewrite Hlock. by apply lockScope_waiting.
Qed.

(** What one action does to the phase of the goroutine that performs it:
    it acquires, releases, stays inside or stays outside. *)
Lemma tstep_phase m t m' t' :
  tstep m t m' t' ->
  owns t \/ outside t ->
  (m = false /\ m' = true /\ outside t /\ owns t') \/
  (m = true /\ m' = false /\ owns t /\ outside t') \/
  (m' = m /\ owns t /\ owns t') \/
  (m' = m /\ outside t /\ outside t').
Proof.
  intros Hstep Hphase.
  destruct Hstep as [k|k|m msg k|m format k|m req k|m req k res]; simpl in *.
  - left. destruct Hphase as [Hh|[Hw|Hq]]; [inversion Hh| |inversion Hq].
    inversion Hw; subst. auto.
  - right; left. destruct Hphase as [Hh|[Hw|Hq]]; [|inversion Hw|inversion Hq].
    inversion Hh; subst. auto.
  - destruct Hphase as [Hh|[Hw|Hq]]; [|inversion Hw|].
    + right; right; left. inversion Hh; subst. auto.
    + right; right; right. inversion Hq; subst. auto.
  - destruct Hphase as [Hh|[Hw|Hq]]; [|inversion Hw|].
    + right; right; left. inversion Hh; subst. auto.
    + right; right; right. inversion Hq; subst. auto.
  - destruct Hphase as [Hh|[Hw|Hq]]; [|inversion Hw|inversion Hq].
    right; right; left. split; [done|]. split; [done|].
    inversion Hh; subst. assumption.
  - destruct Hphase as [Hh|[]].
    right; right; left. auto.
Qed.

Lemma lookup_after_step (ts : list thread) i j t' u :
  <[i := t']> ts !! j = Some u ->
  (j = i /\ u = t') \/ (j <> i /\ ts !! j = Some u).
Proof.
  intros [(-> & -> & _)|(Hne & Hj)]%list_lookup_insert_Some; [by left|right].
  split; [congruence|done].
Qed.

(** The invariant survives every step of every goroutine. *)
Lemma lock_inv_step c c' : lock_inv c -> step c c' -> lock_inv c'.
Proof.
  intros [Hphase Huniq Hfree] Hstep.
  destruct Hstep as [m m' ts i t t' Hi Ht]. simpl in *.
  destruct (tstep_phase _ _ _ _ Ht (Hphase _ _ Hi))
    as [(-> & -> & Hout & Hown)|[(-> & -> & Hown & Hout)|
        [(-> & Hown & Hown')|(-> & Hout & Hout')]]].
  - (* the goroutine acquires the free mutex *)
    split; simpl.
    + intros j u [(-> & ->)|(_ & Hj)]%lookup_after_step; [by left|eauto].
    + intros j1 j2 u1 u2
        [(-> & ->)|(_ & Hj1)]%lookup_after_step
        [(-> & ->)|(_ & Hj2)]%lookup_after_step Ho1 Ho2; try done.
      * by destruct (Hfree eq_refl _ _ Hj2).
      * by destruct (Hfree eq_refl _ _ Hj1).
      * by destruct (Hfree eq_refl _ _ Hj1).
    + discriminate.
  - (* the goroutine releases the mutex it holds *)
    split; simpl.
    + intros j u [(-> & ->)|(_ & Hj)]%lookup_after_step; [by right|eauto].
    + intros j1 j2 u1 u2
        [(-> & ->)|(_ & Hj1)]%lookup_after_step
        [(-> & ->)|(_ & Hj2)]%lookup_after_step Ho1 Ho2;
        try (by destruct (outside_not_owns _ Hout)); eauto.
    + intros _ j u [(-> & ->)|(Hne & Hj)]%lookup_after_step Ho.
      * by apply (outside_not_owns _ Hout).
      * apply Hne. eauto.
  - (* the goroutine moves on inside its lock scope *)
    split; simpl.
    + intros j u [(-> & ->)|(_ & Hj)]%lookup_after_step; [by left|eauto].
    + intros j1 j2 u1 u2
        [(-> & ->)|(Hne1 & Hj1)]%lookup_after_step
        [(-> & ->)|(Hne2 & Hj2)]%lookup_after_step Ho1 Ho2; try done.
      * symmetry. eauto.
      * eauto.
      * eauto.
    + intros Hm. by destruct (Hfree Hm _ _ Hi).
  - (* the goroutine moves on outside every lock scope *)
    split; simpl.
    + intros j u [(-> & ->)|(_ & Hj)]%lookup_after_step; [by right|eauto].
    + intros j1 j2 u1 u2
        [(-> & ->)|(_ & Hj1)]%lookup_after_step
        [(-> & ->)|(_ & Hj2)]%lookup_after_step Ho1 Ho2;
        try (by destruct (outside_not_owns _ Hout')); eauto.
    + intros Hm j u [(-> & ->)|(_ & Hj)]%lookup_after_step.
      * by apply outside_not_owns.
      * eauto.
Qed.

Lemma lock_inv_reachable c c' : lock_inv c -> rtc step c c' -> lock_inv c'.
Proof. intros Hinv Hsteps. induction Hsteps; eauto using lock_inv_step. Qed.

(** It holds at the start when every goroutine is about to enter a lock
    scope and the mutex is free. *)
Lemma lock_inv_start (ts : list thread) :
  Forall outside ts -> lock_inv (mkConfig false ts).
Proof.
  intros Hall. rewrite Forall_lookup in Hall.
  split; simpl.
  - intros i t Hi. right. eauto.
  - intros i j ti tj Hi _ Ho. by destruct (outside_not_owns ti (Hall _ _ Hi)).
  - intros _ i t Hi. apply outside_not_owns. eauto.
Qed.

Lemma none_in_flight (ts : list thread) :
  (forall j u, ts !! j = Some u -> in_flight u = false) ->
  List.filter in_flight ts = [].
Proof.
  induction ts as [|t ts IH]; intros Hnone; simpl; [done|].
  rewrite (Hnone 0 t eq_refl). apply IH.
  intros j u Hj. apply (Hnone (S j) u Hj).
Qed.

(** A request in flight belongs to the goroutine inside the lock scope, so
    under the invariant at most one request is in flight. *)
Lemma in_flight_at_most_one (ts : list thread) :
  (forall i j ti tj, ts !! i = Some ti -> ts !! j = Some tj ->
     in_flight ti = true -> in_flight tj = true -> i = j) ->
  in_flight_count ts <= 1.
Proof.
  unfold in_flight_count.
  induction ts as [|t ts IH]; intros Huniq; simpl; [lia|].
  destruct (in_flight t) eqn:Ht; simpl.
  - assert (List.filter in_flight ts = []) as ->; [|simpl; lia].
    apply none_in_flight. intros j u Hj.
    destruct (in_flight u) eqn:Hfu; [|done].
    specialize (Huniq 0 (S j) t u eq_refl Hj Ht Hfu). discriminate.
  - apply IH. intros i j ti tj Hi Hj Hfi Hfj.
    specialize (Huniq (S i) (S j) ti tj Hi Hj Hfi Hfj). congruence.
Qed.

Lemma lock_inv_in_flight c : lock_inv c -> in_flight_count (pool c) <= 1.
Proof.
  intros [Hphase Huniq _]. apply in_flight_at_most_one.
  intros i j ti tj Hi Hj Hfi Hfj.
  apply (Huniq i j ti tj Hi Hj).
  - destruct (Hphase _ _ Hi) as [?|Hout]; [done|]. by destruct ti.
  - destruct (Hphase _ _ Hj) as [?|Hout]; [done|]. by destruct tj.
Qed.

(** Mutual exclusion for any lock scopes: goroutines that each start by
    entering a lock scope never have two requests in flight. *)
Lemma lock_scopes_exclusive (ts : list thread) c :
  Forall outside ts ->
  rtc step (mkConfig false ts) c ->
  in_flight_count (pool c) <= 1.
Proof.
  intros Hall Hsteps.
  eapply lock_inv_in_flight, lock_inv_reachable; [|exact Hsteps].
  by apply lock_inv_start.
Qed.

Lemma spawn_outside conv newreq (calls : list call) :
  Forall (fun cl => localLock (call_lock cl) = true) calls ->
  Forall outside (pool (spawn conv newreq calls)).
Proof.
  intros Hall. unfold spawn; simpl. apply Forall_map.
  eapply Forall_impl; [exact Hall|].
  intros cl Hlock. simpl. left. by apply mutate_waiting.
Qed.

(** [step_at] with the resulting pool given up to computation. *)
Lemma step_thread m m' (ts ts' : list thread) i t t' :
  ts !! i = Some t ->
  tstep m t m' t' ->
  ts' = <[i := t']> ts ->
  step (mkConfig m ts) (mkConfig m' ts').
Proof. intros Hi Ht ->. by apply (step_at m m' ts i t t'). Qed.

(** The interleaving does let a lock scope put a request in flight. *)
Example pinging_request_in_flight :
  exists c,
    rtc step (mkConfig false [Running pinging; Running pinging]) c
    /\ in_flight_count (pool c) = 1.
Proof.
  pose (inside := SessionExec ping (fun _ => MutexUnlock (Ret (None : option error)))).
  pose (answered := fun _ : Response + error => MutexUnlock (Ret (None : option error))).
  exists (mkConfig true [Running pinging; InFlight ping answered]).
  split; [|reflexivity].
  apply (rtc_l _ _ (mkConfig true [Running pinging; Running inside])).
  { apply (step_thread false true _ _ 1 (Running (MutexLock inside)) (Running inside));
      [reflexivity|apply tstep_lock|reflexivity]. }
  apply rtc_once.
  apply (step_thread true true _ _ 1 (Running inside) (InFlight ping answered));
    [reflexivity|apply tstep_issue|reflexivity].
Qed.














(** Serialization is what keeps the calls apart: two calls that opt out
    are at work at the same time from the start. *)
Example unserialized_calls_overlap :
  working_count (pool (writers sample_encode sample_request unserialized_calls [])) = 2.
Proof. reflexivity. Qed.



(** * Further properties *)

(** ** What a validation error says *)

Lemma Required_string_err s :
  validation.Validate (AString s) [validation.Required] = Some validation.ErrRequired
  <-> s = "".
Proof.
  unfold validation.Validate, validation.Required; simpl.
  destruct s; simpl; split; congruence.
Qed.

Lemma Required_int_err n :
  validation.Validate (AInt n) [validation.Required] = Some validation.ErrRequired
  <-> n = 0%Z.
Proof.
  unfold validation.Validate, validation.Required; simpl.
  destruct (Z.eqb_spec n 0); split; congruence.
Qed.

Lemma Required_strings_err (l : list string) :
  validation.Validate (AStrings l) [validation.Required] = Some validation.ErrRequired
  <-> l = [].
Proof.
  unfold validation.Validate, validation.Required; simpl.
  destruct l; simpl; split; congruence.
Qed.

Lemma Filter_Some (es : gmap string (option validation.Error)) es' :
  validation.Filter es = Some es' -> es' = omap id es /\ es' <> ∅.
Proof.
  unfold validation.Filter.
  destruct (Nat.eqb_spec (size (omap id es)) 0) as [Hz|Hnz]; [done|].
  intros [= <-]. split; [done|]. intros Hempty. apply Hnz.
  by apply map_size_empty_iff.
Qed.

Lemma Validate_lookup_ErrRequired rec k :
  (Validate rec ≫= (λ es, es !! k)) = Some validation.ErrRequired <->
    (k = "Name" /\ Name rec = "") \/
    (k = "RecordType" /\ RecordType rec = "") \/
    (k = "TTL" /\ TTL rec = 0%Z) \/
    (k = "Target" /\ Target rec = []).
Proof.
  destruct (Validate rec) as [es|] eqn:HV; simpl.
  - apply Filter_Some in HV as [-> _]. rewrite lookup_omap.
    destruct (Validate_errors rec !! k) as [e|] eqn:Hk; simpl.
    + apply Validate_errors_lookup in Hk
        as [[-> ->]|[[-> ->]|[[-> ->]|[-> ->]]]]; unfold id.
      * rewrite Required_string_err. split; [auto|].
        intros [[_ ?]|[[? _]|[[? _]|[? _]]]]; done.
      * rewrite Required_string_err. split; [auto|].
        intros [[? _]|[[_ ?]|[[? _]|[? _]]]]; done.
      * rewrite Required_int_err. split; [auto 6|].
        intros [[? _]|[[? _]|[[_ ?]|[? _]]]]; done.
      * rewrite Required_strings_err. split; [auto 6|].
        intros [[? _]|[[? _]|[[? _]|[_ ?]]]]; done.
    + split; [done|]. intros Hkey.
      assert (exists e, Validate_errors rec !! k = Some e) as [e He].
      { destruct Hkey as [[-> _]|[[-> _]|[[-> _]|[-> _]]]];
          eexists; apply Validate_errors_lookup; eauto 6. }
      congruence.
  - split; [done|]. apply Validate_nil_iff in HV as (Hn & Hr & Ht & Hg).
    intros [[_ ?]|[[_ ?]|[[_ ?]|[_ ?]]]]; done.
Qed.

(** X1: [Validate] reports exactly the missing fields: the error it returns
    binds a key to "cannot be blank" if and only if the key is one of
    "Name", "RecordType", "TTL" and "Target" and that field of the record is
    empty (zero for the time-to-live); and the error is never an empty
    map. *)
Theorem Validate_error_names_missing_fields rec :
  (forall k,
     (Validate rec ≫= (λ es, es !! k)) = Some validation.ErrRequired <->
       (k = "Name" /\ Name rec = "") \/
       (k = "RecordType" /\ RecordType rec = "") \/
       (k = "TTL" /\ TTL rec = 0%Z) \/
       (k = "Target" /\ Target rec = []))
  /\ Validate rec <> Some ∅.
Proof.
  split; [apply Validate_lookup_ErrRequired|].
  intros HV. by apply Filter_Some in HV as [_ Hne].
Qed.

(** X2: the record built by [NewRecordBody] never passes [Validate]: its
    type, time-to-live and targets are reported missing whatever the
    argument held, and its name is reported missing exactly when the
    argument's name is empty. *)
Theorem NewRecordBody_result_fails_Validate :
  forall sess params w,
    exists rb w',
      run sess (NewRecordBody params) w = Returned rb w'
      /\ Validate rb <> None
      /\ (Validate rb ≫= (λ es, es !! "RecordType")) = Some validation.ErrRequired
      /\ (Validate rb ≫= (λ es, es !! "TTL")) = Some validation.ErrRequired
      /\ (Validate rb ≫= (λ es, es !! "Target")) = Some validation.ErrRequired
      /\ ((Validate rb ≫= (λ es, es !! "Name")) = Some validation.ErrRequired
          <-> Name params = "").
Proof.
  intros. eexists _, _. split; [reflexivity|].
  split; [|split; [|split; [|split]]].
  - rewrite Validate_nil_iff. intros (_ & Htype & _). by apply Htype.
  - apply Validate_lookup_ErrRequired. auto.
  - apply Validate_lookup_ErrRequired. auto 6.
  - apply Validate_lookup_ErrRequired. auto 6.
  - rewrite Validate_lookup_ErrRequired. simpl. split; [|auto].
    intros [[_ ?]|[[? _]|[[? _]|[? _]]]]; done.
Qed.

(** ** Reading the rule formats *)

Lemma GetRuleFormats_run newreq decoded sess w :
  run sess (papi.GetRuleFormats newreq decoded) w =
  match newreq MethodGet "/papi/v1/rule-formats" None with
  | inr err =>
      Returned (None, Some (ErrWrap "failed to create GetRuleFormats request: %w" err))
        (mkWorld (mutex w) (trace w ++ [ODebug "GetRuleFormats"]))
  | inl req =>
      Returned
        match sess (trace w ++ [ODebug "GetRuleFormats"])%list req with
        | inr cause => (None, Some (ErrWrap "GetRuleFormats request failed: %w" cause))
        | inl resp =>
            if (StatusCode resp =? 200)%Z then (Some (decoded resp), None)
            else (None, Some (ErrAPI resp))
        end
        (mkWorld (mutex w) (trace w ++ [ODebug "GetRuleFormats"; OExec req]))
  end.
Proof.
  unfold papi.GetRuleFormats. simpl.
  destruct (newreq MethodGet "/papi/v1/rule-formats" None) as [req|err]; simpl.
  - unfold emit; simpl. rewrite <- app_assoc. simpl.
    destruct (sess (trace w ++ [ODebug "GetRuleFormats"])%list req) as [resp|cause]; simpl.
    + unfold StatusOK. by destruct (StatusCode resp =? 200)%Z.
    + reflexivity.
  - reflexivity.
Qed.

(** X3: when the request can be built and the session answers it,
    [GetRuleFormats] succeeds exactly on status 200, returning what was
    decoded and no error; on any other status, 2xx included, it returns no
    value and the remote error carrying that response. *)
Theorem GetRuleFormats_succeeds_iff_status_200 newreq decoded sess req resp w :
  newreq MethodGet "/papi/v1/rule-formats" None = inl req ->
  sess (trace w ++ [ODebug "GetRuleFormats"])%list req = inl resp ->
  exists v e w',
    run sess (papi.GetRuleFormats newreq decoded) w = Returned (v, e) w'
    /\ (e = None <-> StatusCode resp = 200%Z)
    /\ (StatusCode resp = 200%Z -> v = Some (decoded resp))
    /\ (StatusCode resp <> 200%Z -> v = None /\ e = Some (ErrAPI resp)).
Proof.
  intros Hreq Hresp. rewrite GetRuleFormats_run, Hreq, Hresp.
  destruct (Z.eqb_spec (StatusCode resp) 200) as [H200|Hother];
    eexists _, _, _; (split; [reflexivity|]); repeat split; try done.
Qed.

Lemma GetRuleFormats_succeeds_iff_status_200_witness :
  exists v e w',
    run (answering 204 "") (papi.GetRuleFormats sample_request no_formats) world0
      = Returned (v, e) w'
    /\ (e = None <-> 204%Z = 200%Z)
    /\ (204%Z = 200%Z -> v = Some (no_formats (mkResponse 204 "")))
    /\ (204%Z <> 200%Z -> v = None /\ e = Some (ErrAPI (mkResponse 204 ""))).
Proof.
  exact (GetRuleFormats_succeeds_iff_status_200
           sample_request no_formats (answering 204 "")
           (mkRequest MethodGet "/papi/v1/rule-formats" None) (mkResponse 204 "")
           world0 eq_refl eq_refl).
Defined.

(** X4: when the session fails the request without a response,
    [GetRuleFormats] returns no value and an error that wraps the session's
    error, after handing the session that one request and no other. *)
Theorem GetRuleFormats_wraps_session_failure newreq decoded sess req cause w :
  newreq MethodGet "/papi/v1/rule-formats" None = inl req ->
  sess (trace w ++ [ODebug "GetRuleFormats"])%list req = inr cause ->
  run sess (papi.GetRuleFormats newreq decoded) w =
  Returned (None, Some (ErrWrap "GetRuleFormats request failed: %w" cause))
    (mkWorld (mutex w) (trace w ++ [ODebug "GetRuleFormats"; OExec req])).
Proof. intros Hreq Hfail. by rewrite GetRuleFormats_run, Hreq, Hfail. Qed.

Lemma GetRuleFormats_wraps_session_failure_witness :
  run (failing (ErrOpaque "connection refused"))
    (papi.GetRuleFormats sample_request no_formats) world0 =
  Returned (None, Some (ErrWrap "GetRuleFormats request failed: %w"
                          (ErrOpaque "connection refused")))
    (mkWorld false
       [ODebug "GetRuleFormats";
        OExec (mkRequest MethodGet "/papi/v1/rule-formats" None)]).
Proof.
  exact (GetRuleFormats_wraps_session_failure
           sample_request no_formats (failing (ErrOpaque "connection refused"))
           (mkRequest MethodGet "/papi/v1/rule-formats" None)
           (ErrOpaque "connection refused") world0 eq_refl eq_refl).
Defined.

(** X5: when the request cannot be built, [GetRuleFormats] returns no value
    and an error that wraps the constructor's error, and the session is
    never contacted. *)
Theorem GetRuleFormats_request_error_skips_session newreq decoded sess err w :
  newreq MethodGet "/papi/v1/rule-formats" None = inr err ->
  exists evs,
    run sess (papi.GetRuleFormats newreq decoded) w =
    Returned (None, Some (ErrWrap "failed to create GetRuleFormats request: %w" err))
      (mkWorld (mutex w) (trace w ++ evs))
    /\ requests evs = 0.
Proof.
  intros Hreq. rewrite GetRuleFormats_run, Hreq.
  by exists [ODebug "GetRuleFormats"].
Qed.

Lemma GetRuleFormats_request_error_skips_session_witness :
  exists evs,
    run (answering 200 "") (papi.GetRuleFormats rejecting_request no_formats) world0 =
    Returned (None, Some (ErrWrap "failed to create GetRuleFormats request: %w"
                            (ErrOpaque "net/http: invalid method")))
      (mkWorld false ([] ++ evs))
    /\ requests evs = 0.
Proof.
  exact (GetRuleFormats_request_error_skips_session
           rejecting_request no_formats (answering 200 "")
           (ErrOpaque "net/http: invalid method") world0 eq_refl).
Defined.

(** X6: whatever the collaborators do, [GetRuleFormats] returns; it returns
    a value or an error and never both or neither; it hands the session at
    most one request; and it does not use the write lock, so it returns
    also while the lock is held, leaving it as it was. *)
Theorem GetRuleFormats_value_xor_error :
  forall newreq decoded sess w,
    exists v e evs,
      run sess (papi.GetRuleFormats newreq decoded) w
        = Returned (v, e) (mkWorld (mutex w) (trace w ++ evs))
      /\ (v = None <-> e <> None)
      /\ requests evs <= 1
      /\ acquisitions evs = 0.
Proof.
  intros. rewrite GetRuleFormats_run.
  assert (forall x : papi.GetRuleFormatsResponse,
            Some x = None <-> @None error <> None) as Hvalue.
  { intros x. split; intros H; congruence. }
  assert (forall y : error,
            @None papi.GetRuleFormatsResponse = None <-> Some y <> None) as Herror.
  { intros y. split; intros H; congruence. }
  destruct (newreq MethodGet "/papi/v1/rule-formats" None) as [req|err].
  - exists
      (fst match sess (trace w ++ [ODebug "GetRuleFormats"])%list req with
           | inr cause => (None, Some (ErrWrap "GetRuleFormats request failed: %w" cause))
           | inl resp =>
               if (StatusCode resp =? 200)%Z then (Some (decoded resp), None)
               else (None, Some (ErrAPI resp))
           end),
      (snd match sess (trace w ++ [ODebug "GetRuleFormats"])%list req with
           | inr cause => (None, Some (ErrWrap "GetRuleFormats request failed: %w" cause))
           | inl resp =>
               if (StatusCode resp =? 200)%Z then (Some (decoded resp), None)
               else (None, Some (ErrAPI resp))
           end),
      [ODebug "GetRuleFormats"; OExec req].
    split; [by rewrite <- surjective_pairing|].
    split; [|split; [unfold requests; simpl; lia|reflexivity]].
    destruct (sess (trace w ++ [ODebug "GetRuleFormats"])%list req) as [resp|cause];
      [destruct (StatusCode resp =? 200)%Z|]; simpl;
      first [apply Hvalue|apply Herror].
  - exists None, (Some (ErrWrap "failed to create GetRuleFormats request: %w" err)),
      [ODebug "GetRuleFormats"].
    split; [reflexivity|]. split; [apply Herror|].
    split; [unfold requests; simpl; lia|reflexivity].
Qed.

(** ** Concurrent execution: the lock is never leaked *)

(** Whatever its flag, a call starts outside every lock scope. *)
Lemma spawn_outside_any conv newreq (calls : list call) :
  Forall outside (pool (spawn conv newreq calls)).
Proof.
  unfold spawn; simpl. apply Forall_map, Forall_forall.
  intros cl _. simpl.
  destruct (localLock (call_lock cl)) eqn:Hlock.
  - left. by apply mutate_waiting.
  - right. rewrite mutate_guard_branch, Hlock. simpl. repeat constructor.
Qed.

Lemma held_by_someone_step c c' :
  lock_inv c -> held_by_someone c -> step c c' -> held_by_someone c'.
Proof.
  intros [Hphase Huniq Hfree] Hheld Hstep.
  destruct Hstep as [m m' ts i t t' Hi Ht]. unfold held_by_someone in *; simpl in *.
  assert (<[i := t']> ts !! i = Some t') as Hi'.
  { apply list_lookup_insert_eq. by eapply lookup_lt_Some. }
  destruct (tstep_phase _ _ _ _ Ht (Hphase _ _ Hi))
    as [(-> & -> & Hout & Hown)|[(-> & -> & Hown & Hout)|
        [(-> & Hown & Hown')|(-> & Hout & Hout')]]].
  - intros _. eauto.
  - discriminate.
  - intros _. eauto.
  - intros Hm. destruct (Hheld Hm) as (j & u & Hj & Hu).
    exists j, u. split; [|done].
    rewrite list_lookup_insert_ne; [done|].
    intros ->. rewrite Hi in Hj. injection Hj as <-.
    by apply (outside_not_owns t).
Qed.

Lemma reachable_invariants (ts : list thread) c :
  Forall outside ts ->
  rtc step (mkConfig false ts) c ->
  lock_inv c /\ held_by_someone c.
Proof.
  intros Hall Hsteps.
  assert (lock_inv (mkConfig false ts) /\ held_by_someone (mkConfig false ts)) as Hstart.
  { split; [by apply lock_inv_start|]. intros Hm. discriminate Hm. }
  clear Hall. induction Hsteps as [c|c c' c'' Hstep _ IH]; [done|].
  apply IH. destruct Hstart as [Hinv Hheld].
  split; [by eapply lock_inv_step|by eapply held_by_someone_step].
Qed.

(** The goroutine inside a lock scope always has a next action. *)
Lemma owner_can_step t :
  owns t -> exists m' t', tstep true t m' t'.
Proof.
  destruct t as [p|req k]; simpl.
  - intros Hh. destruct Hh; eexists _, _; constructor.
  - intros _. exists true, (Running (k (inr (ErrOpaque "")))). constructor.
Qed.

(** With the mutex free, so has every goroutine that has not returned. *)
Lemma outside_can_step t :
  outside t -> returned t = false -> exists m' t', tstep false t m' t'.
Proof.
  destruct t as [p|req k]; simpl; [|done].
  intros [Hw|Hq] Hret.
  - destruct Hw. eexists _, _; constructor.
  - destruct Hq; [done| |]; eexists _, _; constructor.
Qed.

Lemma finished_or_pending (ts : list thread) :
  Forall (fun t => returned t = true) ts
  \/ exists i t, ts !! i = Some t /\ returned t = false.
Proof.
  induction ts as [|t ts [Hall|(i & u & Hi & Hu)]].
  - by left.
  - destruct (returned t) eqn:Ht.
    + left. by constructor.
    + right. by exists 0, t.
  - right. by exists (S i), u.
Qed.

(** X7: in every configuration that concurrent mutating calls can reach,
    whatever their flags, the mutex is held if and only if some call is
    inside its lock scope (between its [Lock] and its deferred [Unlock]),
    and no two calls are. *)
Theorem mutex_held_iff_one_call_inside conv newreq (calls : list call) c :
  rtc step (spawn conv newreq calls) c ->
  (cmutex c = true <-> exists i t, pool c !! i = Some t /\ owns t)
  /\ forall i j ti tj,
       pool c !! i = Some ti -> pool c !! j = Some tj ->
       owns ti -> owns tj -> i = j.
Proof.
  intros Hsteps.
  destruct (reachable_invariants _ c (spawn_outside_any conv newreq calls) Hsteps)
    as [[Hphase Huniq Hfree] Hheld].
  split; [split|exact Huniq].
  - exact Hheld.
  - intros (i & t & Hi & Hown). destruct (cmutex c) eqn:Hm; [done|].
    by destruct (Hfree eq_refl _ _ Hi).
Qed.

Lemma mutex_held_iff_one_call_inside_witness :
  rtc step (spawn sample_encode sample_request racing_calls) racing_second_inside
  /\ (cmutex racing_second_inside = true <->
      exists i t, pool racing_second_inside !! i = Some t /\ owns t).
Proof.
  pose (guard := LogErrorf "Record content not vaiid: %w"
                   (MutexUnlock (Ret (None : option error)))).
  pose (first := Running (CreateRecord sample_encode sample_request
                            www_record "example.com" [])).
  assert (rtc step (spawn sample_encode sample_request racing_calls)
            racing_second_inside) as Hsteps.
  { apply (rtc_l _ _ (mkConfig true [first; Running (LogDebug "DeleteRecord" guard)])).
    { apply (step_thread false true _ _ 1
               (Running (MutexLock (LogDebug "DeleteRecord" guard)))
               (Running (LogDebug "DeleteRecord" guard)));
        [reflexivity|apply tstep_lock|reflexivity]. }
    apply rtc_once.
    apply (step_thread true true _ _ 1
             (Running (LogDebug "DeleteRecord" guard)) (Running guard));
      [reflexivity|apply tstep_debug|reflexivity]. }
  split; [exact Hsteps|].
  exact (proj1 (mutex_held_iff_one_call_inside
                  sample_encode sample_request racing_calls racing_second_inside
                  Hsteps)).
Defined.

(** X8: concurrent mutating calls never deadlock and never leak the lock:
    in every configuration they can reach, whatever their flags, either
    some call can take its next action, or every call has returned and the
    mutex is free. *)
Theorem concurrent_writes_never_deadlock conv newreq (calls : list call) c :
  rtc step (spawn conv newreq calls) c ->
  (finished c /\ cmutex c = false) \/ exists c', step c c'.
Proof.
  intros Hsteps.
  destruct (reachable_invariants _ c (spawn_outside_any conv newreq calls) Hsteps)
    as [[Hphase Huniq Hfree] Hheld].
  destruct c as [m ts]; simpl in *.
  destruct m.
  - right. destruct (Hheld eq_refl) as (i & t & Hi & Hown).
    destruct (owner_can_step t Hown) as (m' & t' & Ht).
    eexists. by eapply step_at.
  - destruct (finished_or_pending ts) as [Hall|(i & t & Hi & Hpending)].
    + by left.
    + right. destruct (Hphase _ _ Hi) as [Hown|Hout].
      * by destruct (Hfree eq_refl _ _ Hi).
      * destruct (outside_can_step t Hout Hpending) as (m' & t' & Ht).
        eexists. by eapply step_at.
Qed.

Lemma concurrent_writes_never_deadlock_witness :
  rtc step (spawn sample_encode sample_request racing_calls)
    (spawn sample_encode sample_request racing_calls)
  /\ ((finished (spawn sample_encode sample_request racing_calls)
       /\ cmutex (spawn sample_encode sample_request racing_calls) = false)
      \/ exists c', step (spawn sample_encode sample_request racing_calls) c').
Proof.
  split; [apply rtc_refl|].
  exact (concurrent_writes_never_deadlock
           sample_encode sample_request racing_calls
           (spawn sample_encode sample_request racing_calls)
           (rtc_refl _ _)).
Defined.

(** ** Clients *)

(** X9: [Client] applies its options from left to right, each to the client
    the earlier ones left: a client built with the options [a] followed by
    [b] is the client built with [a] to which the options [b] are then
    applied in turn (in both packages); without options the client holds the
    session it was given, and a [gtm] client's [Exec] is that session's. *)
Theorem Client_applies_options_in_order :
  (forall sess (a b : list cloudlets.Option),
     cloudlets.Client sess (a ++ b)
     = fold_left (fun c opt => opt c) b (cloudlets.Client sess a))
  /\ (forall sess (a b : list gtm.Option),
     gtm.Client sess (a ++ b)
     = fold_left (fun p opt => opt p) b (gtm.Client sess a))
  /\ (forall sess, cloudlets.client_Session (cloudlets.Client sess []) = sess)
  /\ (forall sess, gtm.Exec (gtm.Client sess []) = sess).
Proof.
  unfold cloudlets.Client, gtm.Client.
  split; [|split; [|split]]; intros; try reflexivity; apply fold_left_app.
Qed.

(** ** A call that finds the lock held *)

(** X10: the lock is the first thing a serialized call asks for: while
    another holder keeps the mutex, the call performs no action at all, not
    even its entry log, and waits without a timeout; run alone in that state
    it never returns. *)
Theorem serialized_call_waits_for_lock conv newreq op sess record zone recLock t :
  localLock recLock = true ->
  run sess (mutate conv newreq op record zone recLock) (mkWorld true t)
    = Blocked (mkWorld true t)
  /\ forall m' t',
       ~ tstep true (Running (mutate conv newreq op record zone recLock)) m' t'.
Proof.
  intros Hlock. rewrite mutate_guard_branch, Hlock. split; [reflexivity|].
  intros m' t' Hstep. inversion Hstep.
Qed.

Lemma serialized_call_waits_for_lock_witness :
  localLock [true] = true
  /\ run (answering 204 "")
       (mutate sample_encode sample_request Delete www_record "example.com" [true])
       (mkWorld true [OLock])
     = Blocked (mkWorld true [OLock]).
Proof.
  split; [reflexivity|].
  exact (proj1 (serialized_call_waits_for_lock
                  sample_encode sample_request Delete (answering 204 "")
                  www_record "example.com" [true] [OLock] eq_refl)).
Defined.
